(** * AgentForge example: populating a knowledge graph with project data

    A shallow embedding of [docs/schemas/examples/agentforge_example.py]:
    the record classes with their defaults, [model_dump(exclude_none=True)],
    the four coroutines that talk to the graph client, and the population
    sequence listed at the end of [main].

    The graph client ([graphiti]) is external.  It is modelled by the
    answers it gives: a function from the calls issued so far and the call
    being awaited to either normal completion or a raised exception.  The
    coroutines run in a state-and-exception monad over a world made of the
    trace of client calls and the console. *)

From stdpp Require Import base option list strings gmap.

Local Open Scope string_scope.
Local Open Scope list_scope.
Local Open Scope nat_scope.

(** ** Enumerations ([class X(str, Enum)]) *)

Inductive ProjectStatus := ACTIVE | MAINTENANCE | PS_DEPRECATED | ARCHIVED.

Inductive FeatureStatus := PLANNED | IN_PROGRESS | COMPLETED | FS_DEPRECATED.

Inductive Priority := CRITICAL | HIGH | MEDIUM | LOW.

Inductive ComponentType := SERVICE | MODULE | LIBRARY | PACKAGE | PLUGIN.

(** The [.value] of each member; a [str]-mixin member is equal to it. *)
Definition ProjectStatus_value (s : ProjectStatus) : string :=
  match s with
  | ACTIVE => "active"
  | MAINTENANCE => "maintenance"
  | PS_DEPRECATED => "deprecated"
  | ARCHIVED => "archived"
  end.

Definition FeatureStatus_value (s : FeatureStatus) : string :=
  match s with
  | PLANNED => "planned"
  | IN_PROGRESS => "in_progress"
  | COMPLETED => "completed"
  | FS_DEPRECATED => "deprecated"
  end.

Definition Priority_value (p : Priority) : string :=
  match p with
  | CRITICAL => "critical"
  | HIGH => "high"
  | MEDIUM => "medium"
  | LOW => "low"
  end.

Definition ComponentType_value (t : ComponentType) : string :=
  match t with
  | SERVICE => "service"
  | MODULE => "module"
  | LIBRARY => "library"
  | PACKAGE => "package"
  | PLUGIN => "plugin"
  end.

(** ** Dumped values

    What a field of these models dumps to: [None], a string (plain or an
    enumeration member) or a list of strings. *)

Inductive PyValue :=
  | PyNone
  | PyStr (s : string)
  | PyList (l : list string).

Global Instance PyValue_eq_dec : EqDecision PyValue.
Proof. solve_decision. Defined.

Definition of_optional {A} (f : A → PyValue) (o : option A) : PyValue :=
  match o with
  | Some a => f a
  | None => PyNone
  end.

Definition is_none (v : PyValue) : bool :=
  match v with
  | PyNone => true
  | _ => false
  end.

(** [BaseModel.model_dump]: the fields in declaration order; with
    [exclude_none] the fields whose value is [None] are left out. *)
Definition model_dump (fields : list (string * PyValue)) (exclude_none : bool)
  : list (string * PyValue) :=
  if exclude_none then filter (λ kv, is_none kv.2 = false) fields else fields.

(** ** Record classes

    A constructor call passes [name] and any of the other fields as keyword
    arguments; [kwargs] holds [None] for a keyword that is not passed, and the
    field then takes its declared default. *)

Module SoftwareProject.
Record t := mk {
  name : string;
  repo_url : option string;
  language : option string;
  framework : option string;
  version : option string;
  status : ProjectStatus;
  description : option string;
  license : option string
}.

Record kwargs := {
  kw_repo_url : option (option string);
  kw_language : option (option string);
  kw_framework : option (option string);
  kw_version : option (option string);
  kw_status : option ProjectStatus;
  kw_description : option (option string);
  kw_license : option (option string)
}.

Definition no_kwargs : kwargs := Build_kwargs None None None None None None None.

Definition new (name : string) (kw : kwargs) : t :=
  {| name := name;
     repo_url := default None (kw_repo_url kw);
     language := default None (kw_language kw);
     framework := default None (kw_framework kw);
     version := default None (kw_version kw);
     status := default ACTIVE (kw_status kw);
     description := default None (kw_description kw);
     license := default None (kw_license kw) |}.

Definition fields (p : t) : list (string * PyValue) :=
  [ ("name", PyStr (name p));
    ("repo_url", of_optional PyStr (repo_url p));
    ("language", of_optional PyStr (language p));
    ("framework", of_optional PyStr (framework p));
    ("version", of_optional PyStr (version p));
    ("status", PyStr (ProjectStatus_value (status p)));
    ("description", of_optional PyStr (description p));
    ("license", of_optional PyStr (license p)) ].
End SoftwareProject.

Module Feature.
Record t := mk {
  name : string;
  status : FeatureStatus;
  priority : option Priority;
  release_version : option string;
  description : option string
}.

Record kwargs := {
  kw_status : option FeatureStatus;
  kw_priority : option (option Priority);
  kw_release_version : option (option string);
  kw_description : option (option string)
}.

Definition no_kwargs : kwargs := Build_kwargs None None None None.

Definition new (name : string) (kw : kwargs) : t :=
  {| name := name;
     status := default PLANNED (kw_status kw);
     priority := default None (kw_priority kw);
     release_version := default None (kw_release_version kw);
     description := default None (kw_description kw) |}.

Definition fields (f : t) : list (string * PyValue) :=
  [ ("name", PyStr (name f));
    ("status", PyStr (FeatureStatus_value (status f)));
    ("priority", of_optional (λ p, PyStr (Priority_value p)) (priority f));
    ("release_version", of_optional PyStr (release_version f));
    ("description", of_optional PyStr (description f)) ].
End Feature.

Module Component.
Record t := mk {
  name : string;
  type : option ComponentType;
  path : option string;
  language : option string;
  dependencies : list string;
  description : option string
}.

Record kwargs := {
  kw_type : option (option ComponentType);
  kw_path : option (option string);
  kw_language : option (option string);
  kw_dependencies : option (list string);
  kw_description : option (option string)
}.

Definition no_kwargs : kwargs := Build_kwargs None None None None None.

Definition new (name : string) (kw : kwargs) : t :=
  {| name := name;
     type := default None (kw_type kw);
     path := default None (kw_path kw);
     language := default None (kw_language kw);
     dependencies := default [] (kw_dependencies kw);
     description := default None (kw_description kw) |}.

Definition fields (c : t) : list (string * PyValue) :=
  [ ("name", PyStr (name c));
    ("type", of_optional (λ t, PyStr (ComponentType_value t)) (type c));
    ("path", of_optional PyStr (path c));
    ("language", of_optional PyStr (language c));
    ("dependencies", PyList (dependencies c));
    ("description", of_optional PyStr (description c)) ].
End Component.

(** ** Example data for AgentForge *)

Definition AGENTFORGE_PROJECT : SoftwareProject.t :=
  SoftwareProject.new "AgentForge"
    {| SoftwareProject.kw_repo_url := Some (Some "https://github.com/example/agent-forge");
       SoftwareProject.kw_language := Some (Some "TypeScript");
       SoftwareProject.kw_framework := Some (Some "Next.js");
       SoftwareProject.kw_version := Some (Some "0.5.0");
       SoftwareProject.kw_status := Some ACTIVE;
       SoftwareProject.kw_description :=
         Some (Some "AI agent workflow automation platform with visual builder");
       SoftwareProject.kw_license := Some (Some "MIT") |}.

Definition AGENTFORGE_FEATURES : list Feature.t :=
  [ Feature.new "Workflow Builder"
      {| Feature.kw_status := Some COMPLETED;
         Feature.kw_priority := Some (Some HIGH);
         Feature.kw_release_version := Some (Some "0.3.0");
         Feature.kw_description :=
           Some (Some "Visual drag-and-drop workflow creation interface") |};
    Feature.new "Feed System"
      {| Feature.kw_status := Some COMPLETED;
         Feature.kw_priority := Some (Some MEDIUM);
         Feature.kw_release_version := Some (Some "0.4.0");
         Feature.kw_description :=
           Some (Some "Real-time activity feed for agent events") |};
    Feature.new "Knowledge Graph Integration"
      {| Feature.kw_status := Some IN_PROGRESS;
         Feature.kw_priority := Some (Some HIGH);
         Feature.kw_release_version := None;
         Feature.kw_description :=
           Some (Some "Integration with AMG for persistent agent memory") |};
    Feature.new "Multi-Agent Orchestration"
      {| Feature.kw_status := Some PLANNED;
         Feature.kw_priority := Some (Some CRITICAL);
         Feature.kw_release_version := None;
         Feature.kw_description :=
           Some (Some "Coordinate multiple AI agents in complex workflows") |} ].

Definition AGENTFORGE_COMPONENTS : list Component.t :=
  [ Component.new "Frontend App"
      {| Component.kw_type := Some (Some MODULE);
         Component.kw_path := Some (Some "src/app/");
         Component.kw_language := Some (Some "TypeScript");
         Component.kw_dependencies := Some ["React"; "Next.js"; "TailwindCSS"];
         Component.kw_description := Some (Some "Next.js frontend application") |};
    Component.new "API Routes"
      {| Component.kw_type := Some (Some SERVICE);
         Component.kw_path := Some (Some "src/app/api/");
         Component.kw_language := Some (Some "TypeScript");
         Component.kw_dependencies := Some ["Next.js"; "Prisma"];
         Component.kw_description := Some (Some "Backend API endpoints") |};
    Component.new "Workflow Engine"
      {| Component.kw_type := Some (Some MODULE);
         Component.kw_path := Some (Some "src/engine/");
         Component.kw_language := Some (Some "TypeScript");
         Component.kw_dependencies := Some ["LangChain"; "OpenAI"];
         Component.kw_description :=
           Some (Some "Core execution engine for agent workflows") |};
    Component.new "MCP Integration"
      {| Component.kw_type := Some (Some LIBRARY);
         Component.kw_path := Some (Some "src/lib/mcp/");
         Component.kw_language := Some (Some "TypeScript");
         Component.kw_dependencies := Some ["@modelcontextprotocol/sdk"];
         Component.kw_description :=
           Some (Some "Model Context Protocol integration layer") |} ].

(** ** The graph client and the world

    The two methods of the client the script calls, with their keyword
    arguments. *)

Inductive Call :=
  | AddEntity (name entity_type : string) (summary : option string)
      (metadata : list (string * PyValue))
  | AddRelationship (source_entity target_entity relationship_type fact : string).

Global Instance Call_eq_dec : EqDecision Call.
Proof. solve_decision. Defined.

(** An exception is identified by its message. *)
Definition Exn := string.

Inductive Outcome :=
  | Done
  | Raised (e : Exn).

Global Instance Outcome_eq_dec : EqDecision Outcome.
Proof. solve_decision. Defined.

(** The client answers an awaited call knowing the calls issued before it:
    [None] when the call completes, [Some e] when it raises [e]. *)
Definition Graphiti := list Call → Call → option Exn.

(** A client that accepts every call. *)
Definition reliable : Graphiti := λ _ _, None.

Record World := {
  trace : list (Call * Outcome);
  console : list string
}.

Definition empty_world : World := {| trace := []; console := [] |}.

(** The calls issued, and those the store accepted. *)
Definition issued (w : World) : list Call := (trace w).*1.

Definition completed (ev : Call * Outcome) : bool :=
  match ev.2 with
  | Done => true
  | Raised _ => false
  end.

Definition written (w : World) : list Call := (filter (λ ev, completed ev = true) (trace w)).*1.

(** ** Coroutines: state and exceptions *)

Inductive Result (A : Type) :=
  | Ok (a : A)
  | Raise (e : Exn).
Arguments Ok {A} a.
Arguments Raise {A} e.

Definition M (A : Type) : Type := World → World * Result A.

Definition ret {A} (a : A) : M A := λ w, (w, Ok a).

Definition bind {A B} (m : M A) (k : A → M B) : M B :=
  λ w, match m w with
       | (w', Ok a) => k a w'
       | (w', Raise e) => (w', Raise e)
       end.

Declare Scope py_scope.
Delimit Scope py_scope with py.
Notation "m ;; k" := (bind m (λ _, k))
  (at level 100, k at level 200, right associativity) : py_scope.
Local Open Scope py_scope.

(** [await graphiti.method(...)] *)
Definition await (graphiti : Graphiti) (c : Call) : M unit :=
  λ w, match graphiti (issued w) c with
       | None => ({| trace := trace w ++ [(c, Done)]; console := console w |}, Ok ())
       | Some e => ({| trace := trace w ++ [(c, Raised e)]; console := console w |}, Raise e)
       end.

Definition print (line : string) : M unit :=
  λ w, ({| trace := trace w; console := console w ++ [line] |}, Ok ()).

(** [for x in xs: body] *)
Fixpoint for_each {A} (xs : list A) (body : A → M unit) : M unit :=
  match xs with
  | [] => ret ()
  | x :: xs' => body x ;; for_each xs' body
  end.

(** The pictographs of the progress lines, byte for byte as in the source. *)
Definition bytes (l : list nat) : string := String.string_of_list_ascii (Ascii.ascii_of_nat <$> l).

Definition MARK_ADDED : string := bytes [226; 128; 154; 195; 186; 195; 150].
Definition MARK_LINK : string := bytes [239; 163; 191; 195; 188; 195; 174; 195; 179].
Definition MARK_ARROW : string := bytes [226; 128; 154; 195; 156; 195; 173].

(** ** Functions to populate the graph *)

Definition populate_project (graphiti : Graphiti) (project : SoftwareProject.t) : M unit :=
  await graphiti
    (AddEntity (SoftwareProject.name project) "software_project"
       (SoftwareProject.description project)
       (model_dump (SoftwareProject.fields project) true)) ;;
  print (MARK_ADDED +:+ " Added project: " +:+ SoftwareProject.name project).

Definition populate_features (graphiti : Graphiti) (project_name : string)
    (features : list Feature.t) : M unit :=
  for_each features (λ feature,
    await graphiti
      (AddEntity (Feature.name feature) "feature" (Feature.description feature)
         (model_dump (Feature.fields feature) true)) ;;
    await graphiti
      (AddRelationship project_name (Feature.name feature) "has_feature"
         (project_name +:+ " includes the " +:+ Feature.name feature +:+ " feature")) ;;
    print ("  " +:+ MARK_ADDED +:+ " Added feature: " +:+ Feature.name feature)).

Definition populate_components (graphiti : Graphiti) (project_name : string)
    (components : list Component.t) : M unit :=
  for_each components (λ component,
    await graphiti
      (AddEntity (Component.name component) "component" (Component.description component)
         (model_dump (Component.fields component) true)) ;;
    await graphiti
      (AddRelationship project_name (Component.name component) "has_component"
         (project_name +:+ " contains the " +:+ Component.name component +:+ " component")) ;;
    print ("  " +:+ MARK_ADDED +:+ " Added component: " +:+ Component.name component)).

Definition add_component_dependencies (graphiti : Graphiti)
    (components : list Component.t) : M unit :=
  let component_names : gset string := list_to_set (Component.name <$> components) in
  for_each components (λ component,
    for_each (Component.dependencies component) (λ dep,
      if decide (dep ∈ component_names) then
        await graphiti
          (AddRelationship (Component.name component) dep "depends_on"
             (Component.name component +:+ " depends on " +:+ dep)) ;;
        print ("  " +:+ MARK_LINK +:+ " " +:+ Component.name component +:+ " " +:+ MARK_ARROW
               +:+ " depends_on " +:+ MARK_ARROW +:+ " " +:+ dep)
      else ret ())).

(** The population sequence given at the end of [main], for any project,
    features and components in place of the AgentForge constants. *)
Definition population_sequence (graphiti : Graphiti) (project : SoftwareProject.t)
    (features : list Feature.t) (components : list Component.t) : M unit :=
  populate_project graphiti project ;;
  populate_features graphiti (SoftwareProject.name project) features ;;
  populate_components graphiti (SoftwareProject.name project) components ;;
  add_component_dependencies graphiti components.

(** ** Observations on a run *)

(** The edge a relationship call carries: source, target and type. *)
Definition edge_of (c : Call) : option (string * string * string) :=
  match c with
  | AddRelationship s t ty _ => Some (s, t, ty)
  | AddEntity _ _ _ _ => None
  end.

(** The edges the dependency pass emits, in order, when the client accepts
    every call. *)
Definition emitted_edges (components : list Component.t) : list (string * string * string) :=
  omap edge_of (issued (add_component_dependencies reliable components empty_world).1).

(** The component [{name: n, dependencies: deps}] of the scenarios. *)
Definition component_with (n : string) (deps : list string) : Component.t :=
  Component.new n
    {| Component.kw_type := None; Component.kw_path := None; Component.kw_language := None;
       Component.kw_dependencies := Some deps; Component.kw_description := None |}.

(** ** Scripts

    A coroutine of this file does nothing but await client calls and print
    lines, in an order fixed by its arguments.  A script lists these actions;
    running it stops at the first call that raises. *)

Inductive Action :=
  | Awaits (c : Call)
  | Prints (line : string).

Fixpoint run_script (graphiti : Graphiti) (s : list Action) : M unit :=
  match s with
  | [] => ret ()
  | Awaits c :: s' => await graphiti c ;; run_script graphiti s'
  | Prints line :: s' => print line ;; run_script graphiti s'
  end.

Definition call_of (a : Action) : option Call :=
  match a with
  | Awaits c => Some c
  | Prints _ => None
  end.

Definition line_of (a : Action) : option string :=
  match a with
  | Awaits _ => None
  | Prints line => Some line
  end.

Definition calls_of (s : list Action) : list Call := omap call_of s.
Definition lines_of (s : list Action) : list string := omap line_of s.

Definition extend (w : World) (evs : list (Call * Outcome)) (lines : list string) : World :=
  {| trace := trace w ++ evs; console := console w ++ lines |}.

Definition accepted (cs : list Call) : list (Call * Outcome) := (λ c, (c, Done)) <$> cs.

Definition project_script (project : SoftwareProject.t) : list Action :=
  [ Awaits (AddEntity (SoftwareProject.name project) "software_project"
              (SoftwareProject.description project)
              (model_dump (SoftwareProject.fields project) true));
    Prints (MARK_ADDED +:+ " Added project: " +:+ SoftwareProject.name project) ].

Definition feature_script (project_name : string) (feature : Feature.t) : list Action :=
  [ Awaits (AddEntity (Feature.name feature) "feature" (Feature.description feature)
              (model_dump (Feature.fields feature) true));
    Awaits (AddRelationship project_name (Feature.name feature) "has_feature"
              (project_name +:+ " includes the " +:+ Feature.name feature +:+ " feature"));
    Prints ("  " +:+ MARK_ADDED +:+ " Added feature: " +:+ Feature.name feature) ].

Definition component_script (project_name : string) (component : Component.t) : list Action :=
  [ Awaits (AddEntity (Component.name component) "component" (Component.description component)
              (model_dump (Component.fields component) true));
    Awaits (AddRelationship project_name (Component.name component) "has_component"
              (project_name +:+ " contains the " +:+ Component.name component +:+ " component"));
    Prints ("  " +:+ MARK_ADDED +:+ " Added component: " +:+ Component.name component) ].

Definition dependency_script (names : gset string) (source dep : string) : list Action :=
  if decide (dep ∈ names) then
    [ Awaits (AddRelationship source dep "depends_on" (source +:+ " depends on " +:+ dep));
      Prints ("  " +:+ MARK_LINK +:+ " " +:+ source +:+ " " +:+ MARK_ARROW
              +:+ " depends_on " +:+ MARK_ARROW +:+ " " +:+ dep) ]
  else [].

Definition dependencies_script (components : list Component.t) : list Action :=
  let names : gset string := list_to_set (Component.name <$> components) in
  components ≫= λ component,
    Component.dependencies component ≫= dependency_script names (Component.name component).

Definition population_script (project : SoftwareProject.t) (features : list Feature.t)
    (components : list Component.t) : list Action :=
  project_script project
  ++ (features ≫= feature_script (SoftwareProject.name project))
  ++ (components ≫= component_script (SoftwareProject.name project))
  ++ dependencies_script components.

(** ** The dependency projection as the specification words it

    Outer loop by component order, inner loop by dependency list order; a
    dependency is kept when it is the name of a component of the input. *)

Definition depends_on_edge (source target : string) : string * string * string :=
  (source, target, "depends_on").

Definition edges_in_order (components : list Component.t) : list (string * string * string) :=
  components ≫= λ a,
    depends_on_edge (Component.name a)
      <$> filter (λ d, d ∈ Component.name <$> components) (Component.dependencies a).

(** Number of occurrences of [x] in [l]. *)
Definition occurrences `{EqDecision A} (x : A) (l : list A) : nat :=
  length (filter (λ y, y = x) l).

(** ** Predicates on calls *)

Definition entity_name (c : Call) : option string :=
  match c with
  | AddEntity n _ _ _ => Some n
  | AddRelationship _ _ _ _ => None
  end.

(** Every relationship of [cs] joins names that are in [seen] or were
    registered by an [add_entity] earlier in [cs]. *)
Fixpoint ordered_from (seen : gset string) (cs : list Call) : Prop :=
  match cs with
  | [] => True
  | AddEntity n _ _ _ :: cs' => ordered_from ({[n]} ∪ seen) cs'
  | AddRelationship s t _ _ :: cs' => s ∈ seen ∧ t ∈ seen ∧ ordered_from seen cs'
  end.

Definition is_depends_on (c : Call) : Prop :=
  match c with
  | AddRelationship _ _ ty _ => ty = "depends_on"
  | AddEntity _ _ _ _ => False
  end.

Definition metadata_without_none (c : Call) : Prop :=
  match c with
  | AddEntity _ _ _ metadata => ∀ k v, (k, v) ∈ metadata → v ≠ PyNone
  | AddRelationship _ _ _ _ => True
  end.

(** Clients for the examples: one that refuses every call, and one that
    refuses the call awaited after [n] earlier ones. *)
Definition unavailable (e : Exn) : Graphiti := λ _ _, Some e.

Definition failing_at (n : nat) (e : Exn) : Graphiti :=
  λ history _, if decide (length history = n) then Some e else None.

(** Scenario 1 of the specification: [A -> [B, X]], [B -> []]. *)
Definition scenario_1 : list Component.t :=
  [component_with "A" ["B"; "X"]; component_with "B" []].

(** A script in which every awaited call is followed by one printed line. *)
Inductive paired : list Action → Prop :=
  | paired_nil : paired []
  | paired_cons c line s : paired s → paired (Awaits c :: Prints line :: s).

(** ** The calls and the line of one loop iteration *)

Definition feature_entity (feature : Feature.t) : Call :=
  AddEntity (Feature.name feature) "feature" (Feature.description feature)
    (model_dump (Feature.fields feature) true).

Definition feature_link (project_name : string) (feature : Feature.t) : Call :=
  AddRelationship project_name (Feature.name feature) "has_feature"
    (project_name +:+ " includes the " +:+ Feature.name feature +:+ " feature").

Definition feature_line (feature : Feature.t) : string :=
  "  " +:+ MARK_ADDED +:+ " Added feature: " +:+ Feature.name feature.

Definition component_entity (component : Component.t) : Call :=
  AddEntity (Component.name component) "component" (Component.description component)
    (model_dump (Component.fields component) true).

Definition component_link (project_name : string) (component : Component.t) : Call :=
  AddRelationship project_name (Component.name component) "has_component"
    (project_name +:+ " contains the " +:+ Component.name component +:+ " component").

Definition component_line (component : Component.t) : string :=
  "  " +:+ MARK_ADDED +:+ " Added component: " +:+ Component.name component.

Definition project_entity (project : SoftwareProject.t) : Call :=
  AddEntity (SoftwareProject.name project) "software_project"
    (SoftwareProject.description project)
    (model_dump (SoftwareProject.fields project) true).

(** ** Main execution

    [main] only narrates the example data on the console; the population
    sequence at its end is commented out in the source. *)

Global Instance FeatureStatus_eq_dec : EqDecision FeatureStatus.
Proof. solve_decision. Defined.



(** [{k1: v1, ...}.get(key, fallback)] on a dictionary literal with distinct keys. *)
Fixpoint dict_get {K V} `{EqDecision K} (d : list (K * V)) (key : K) (fallback : V) : V :=
  match d with
  | [] => fallback
  | (k, v) :: d' => if decide (k = key) then v else dict_get d' key fallback
  end.

Definition MARK_IN_PROGRESS : string := bytes [239; 163; 191; 195; 188; 195; 182; 195; 159].
Definition MARK_PLANNED : string := bytes [239; 163; 191; 195; 188; 195; 172; 195; 163].
Definition MARK_DEPRECATED : string :=
  bytes [226; 128; 154; 195; 182; 226; 128; 160; 195; 148; 226; 136; 143; 195; 168].
Definition MARK_UNKNOWN : string := bytes [226; 128; 154; 195; 185; 195; 172].

Definition status_emoji_table : list (FeatureStatus * string) :=
  [ (COMPLETED, MARK_ADDED);
    (IN_PROGRESS, MARK_IN_PROGRESS);
    (PLANNED, MARK_PLANNED);
    (FS_DEPRECATED, MARK_DEPRECATED) ].






(** The metadata of an entity call agrees with its other arguments: it
    holds the name under [name], and the summary under [description] exactly
    when there is one. *)
Definition metadata_matches_arguments (c : Call) : Prop :=
  match c with
  | AddEntity n _ summary metadata =>
      ("name", PyStr n) ∈ metadata
      ∧ (∀ d, summary = Some d ↔ ("description", PyStr d) ∈ metadata)
      ∧ (summary = None ↔ "description" ∉ metadata.*1)
  | AddRelationship _ _ _ _ => True
  end.

(** * Properties *)

(** ** Running a script *)

Lemma extend_nil w : extend w [] [] = w.
Proof. destruct w; unfold extend; simpl. by rewrite !app_nil_r. Qed.

Lemma extend_extend w evs1 ls1 evs2 ls2 :
  extend (extend w evs1 ls1) evs2 ls2 = extend w (evs1 ++ evs2) (ls1 ++ ls2).
Proof. unfold extend; simpl. by rewrite !app_assoc. Qed.

Lemma issued_extend w evs ls : issued (extend w evs ls) = issued w ++ evs.*1.
Proof. unfold issued, extend; simpl. by rewrite fmap_app. Qed.

Lemma accepted_fst cs : (accepted cs).*1 = cs.
Proof. unfold accepted. rewrite <- list_fmap_compose. by rewrite list_fmap_id. Qed.

Lemma accepted_app cs1 cs2 : accepted (cs1 ++ cs2) = accepted cs1 ++ accepted cs2.
Proof. apply fmap_app. Qed.

Lemma calls_of_app s1 s2 : calls_of (s1 ++ s2) = calls_of s1 ++ calls_of s2.
Proof. apply omap_app. Qed.

Lemma lines_of_app s1 s2 : lines_of (s1 ++ s2) = lines_of s1 ++ lines_of s2.
Proof. apply omap_app. Qed.

Lemma await_accepted g c w :
  g (issued w) c = None → await g c w = (extend w [(c, Done)] [], Ok ()).
Proof. intros H. unfold await, extend. rewrite H. by rewrite app_nil_r. Qed.

Lemma await_raised g c e w :
  g (issued w) c = Some e → await g c w = (extend w [(c, Raised e)] [], Raise e).
Proof. intros H. unfold await, extend. rewrite H. by rewrite app_nil_r. Qed.

Lemma print_extend line w : print line w = (extend w [] [line], Ok ()).
Proof. unfold print, extend. by rewrite app_nil_r. Qed.

(** A run of a script either goes through, or stops at its first refused call. *)
Lemma run_script_cases g s w :
  run_script g s w = (extend w (accepted (calls_of s)) (lines_of s), Ok ())
  ∨ ∃ pre c post e,
      s = pre ++ Awaits c :: post
      ∧ g (issued w ++ calls_of pre) c = Some e
      ∧ run_script g s w
        = (extend w (accepted (calls_of pre) ++ [(c, Raised e)]) (lines_of pre), Raise e).
Proof.
  revert w. induction s as [|a s IH]; intros w.
  - left. simpl. unfold ret. by rewrite extend_nil.
  - destruct a as [c|line]; simpl; unfold bind.
    + destruct (g (issued w) c) as [e|] eqn:Hg.
      * right. exists [], c, s, e. simpl. rewrite app_nil_r.
        by rewrite (await_raised _ _ e).
      * rewrite await_accepted by done.
        destruct (IH (extend w [(c, Done)] [])) as [Hok|(pre & c' & post & e & -> & Hg' & Hrun)].
        -- left. rewrite Hok, extend_extend. done.
        -- right. exists (Awaits c :: pre), c', post, e. split; [done|].
           rewrite issued_extend in Hg'. simpl in Hg'. rewrite <- app_assoc in Hg'.
           split; [done|]. rewrite Hrun, extend_extend. done.
    + rewrite print_extend.
      destruct (IH (extend w [] [line])) as [Hok|(pre & c' & post & e & -> & Hg' & Hrun)].
      * left. rewrite Hok, extend_extend. done.
      * right. exists (Prints line :: pre), c', post, e. split; [done|].
        rewrite issued_extend in Hg'. simpl in Hg'. rewrite app_nil_r in Hg'.
        split; [done|]. rewrite Hrun, extend_extend. done.
Qed.

Lemma run_script_reliable s w :
  run_script reliable s w = (extend w (accepted (calls_of s)) (lines_of s), Ok ()).
Proof.
  destruct (run_script_cases reliable s w) as [H|(pre & c & post & e & _ & Hg & _)]; [done|].
  discriminate Hg.
Qed.

Lemma run_script_app g s1 s2 w :
  run_script g (s1 ++ s2) w = (run_script g s1 ;; run_script g s2) w.
Proof.
  revert w. induction s1 as [|a s1 IH]; intros w; [done|].
  destruct a; simpl; unfold bind.
  - destruct (await g c w) as [w' [[]|e]]; [apply IH|done].
  - destruct (print line w) as [w' [[]|e]]; [apply IH|done].
Qed.

(** ** The coroutines follow their scripts *)

Lemma bind_script g (m k : M unit) s1 s2 :
  (∀ w, m w = run_script g s1 w) → (∀ w, k w = run_script g s2 w) →
  ∀ w, (m ;; k) w = run_script g (s1 ++ s2) w.
Proof.
  intros Hm Hk w. rewrite run_script_app. unfold bind. rewrite Hm.
  destruct (run_script g s1 w) as [w' [[]|e]]; [apply Hk|done].
Qed.

Lemma for_each_script {A} g (xs : list A) (body : A → M unit) (f : A → list Action) :
  (∀ x w, body x w = run_script g (f x) w) →
  ∀ w, for_each xs body w = run_script g (xs ≫= f) w.
Proof.
  intros Hbody. induction xs as [|x xs IH]; intros w; [done|].
  simpl. change ((x :: xs) ≫= f) with (f x ++ (xs ≫= f)).
  by apply bind_script.
Qed.

Lemma populate_project_script g project w :
  populate_project g project w = run_script g (project_script project) w.
Proof.
  unfold populate_project, project_script; simpl. unfold bind.
  destruct (await g _ w) as [w' [[]|e]]; [|done].
  by destruct (print _ w') as [w'' [[]|e]].
Qed.

Lemma populate_features_script g project_name features w :
  populate_features g project_name features w
  = run_script g (features ≫= feature_script project_name) w.
Proof.
  apply for_each_script. clear w. intros feature w.
  unfold feature_script; simpl. unfold bind.
  destruct (await g _ w) as [w1 [[]|e]]; [|done].
  destruct (await g _ w1) as [w2 [[]|e]]; [|done].
  by destruct (print _ w2) as [w3 [[]|e]].
Qed.

Lemma populate_components_script g project_name components w :
  populate_components g project_name components w
  = run_script g (components ≫= component_script project_name) w.
Proof.
  apply for_each_script. clear w. intros component w.
  unfold component_script; simpl. unfold bind.
  destruct (await g _ w) as [w1 [[]|e]]; [|done].
  destruct (await g _ w1) as [w2 [[]|e]]; [|done].
  by destruct (print _ w2) as [w3 [[]|e]].
Qed.

Lemma add_component_dependencies_script g components w :
  add_component_dependencies g components w
  = run_script g (dependencies_script components) w.
Proof.
  unfold add_component_dependencies, dependencies_script.
  apply for_each_script. clear w. intros component w.
  apply for_each_script. clear w. intros dep w.
  unfold dependency_script. case_decide; [|done].
  simpl. unfold bind.
  destruct (await g _ w) as [w1 [[]|e]]; [|done].
  by destruct (print _ w1) as [w2 [[]|e]].
Qed.

Lemma population_sequence_script g project features components w :
  population_sequence g project features components w
  = run_script g (population_script project features components) w.
Proof.
  unfold population_sequence, population_script.
  apply bind_script; [apply populate_project_script|].
  apply bind_script; [apply populate_features_script|].
  apply bind_script; [apply populate_components_script|].
  apply add_component_dependencies_script.
Qed.

(** ** The edges of the dependency pass *)

Lemma issued_run_reliable s :
  issued (run_script reliable s empty_world).1 = calls_of s.
Proof.
  rewrite run_script_reliable; simpl. rewrite issued_extend; simpl.
  apply accepted_fst.
Qed.

Lemma dependency_script_edges (names : gset string) source deps :
  omap edge_of (calls_of (deps ≫= dependency_script names source))
  = depends_on_edge source <$> filter (λ d, d ∈ names) deps.
Proof.
  induction deps as [|d deps IH]; [done|].
  change ((d :: deps) ≫= dependency_script names source)
    with (dependency_script names source d ++ (deps ≫= dependency_script names source)).
  rewrite calls_of_app, omap_app, IH, filter_cons.
  unfold dependency_script. by case_decide.
Qed.

Lemma components_script_edges (names : gset string) (l : list Component.t) :
  omap edge_of (calls_of (l ≫= λ component,
    Component.dependencies component ≫= dependency_script names (Component.name component)))
  = l ≫= λ a, depends_on_edge (Component.name a)
                <$> filter (λ d, d ∈ names) (Component.dependencies a).
Proof.
  induction l as [|a l IH]; [done|].
  rewrite !bind_cons, calls_of_app, omap_app, IH.
  by rewrite dependency_script_edges.
Qed.

Lemma dependencies_script_edges components :
  omap edge_of (calls_of (dependencies_script components)) = edges_in_order components.
Proof.
  unfold dependencies_script, edges_in_order. rewrite components_script_edges.
  apply list_bind_ext; [|done]. intros a. f_equal.
  apply list_filter_iff. intros d. apply elem_of_list_to_set.
Qed.

Lemma emitted_edges_in_order components :
  emitted_edges components = edges_in_order components.
Proof.
  unfold emitted_edges.
  rewrite (surjective_pairing (add_component_dependencies _ _ _)).
  simpl. rewrite add_component_dependencies_script, issued_run_reliable.
  apply dependencies_script_edges.
Qed.

Lemma elem_of_edges_in_order components e :
  e ∈ edges_in_order components
  ↔ ∃ a d, a ∈ components ∧ d ∈ Component.dependencies a
           ∧ d ∈ Component.name <$> components
           ∧ e = depends_on_edge (Component.name a) d.
Proof.
  unfold edges_in_order. rewrite list_elem_of_bind. split.
  - intros (a & He & Ha). apply list_elem_of_fmap in He as (d & -> & Hd).
    apply list_elem_of_filter in Hd as [Hin Hd]. by exists a, d.
  - intros (a & d & Ha & Hd & Hin & ->). exists a. split; [|done].
    apply list_elem_of_fmap_2. by apply list_elem_of_filter.
Qed.

Lemma NoDup_name_inj (components : list Component.t) a a' :
  NoDup (Component.name <$> components) →
  a ∈ components → a' ∈ components → Component.name a = Component.name a' → a = a'.
Proof.
  induction components as [|c l IH]; simpl; intros Hnd Ha Ha' Heq.
  - by apply elem_of_nil in Ha.
  - apply NoDup_cons in Hnd as [Hc Hnd].
    apply elem_of_cons in Ha as [->|Ha]; apply elem_of_cons in Ha' as [->|Ha']; auto.
    + exfalso. apply Hc. rewrite Heq. by apply list_elem_of_fmap_2.
    + exfalso. apply Hc. rewrite <- Heq. by apply list_elem_of_fmap_2.
Qed.

Lemma add_component_dependencies_reliable components w :
  (add_component_dependencies reliable components w).2 = Ok ().
Proof. by rewrite add_component_dependencies_script, run_script_reliable. Qed.

Lemma run_script_issued g s w :
  ∃ new, issued (run_script g s w).1 = issued w ++ new
         ∧ new `prefix_of` calls_of s
         ∧ ((run_script g s w).2 = Ok () → new = calls_of s).
Proof.
  destruct (run_script_cases g s w) as [->|(pre & c & post & e & -> & _ & ->)]; simpl.
  - exists (calls_of s). rewrite issued_extend, accepted_fst. done.
  - exists (calls_of pre ++ [c]). rewrite issued_extend, fmap_app, accepted_fst. simpl.
    split; [done|]. split; [|done].
    rewrite calls_of_app. simpl. exists (calls_of post). by rewrite <- app_assoc.
Qed.

Lemma omap_prefix {A B} (f : A → option B) (l1 l2 : list A) :
  l1 `prefix_of` l2 → omap f l1 `prefix_of` omap f l2.
Proof. intros [k ->]. rewrite omap_app. by eexists. Qed.

Lemma occurrences_app `{EqDecision A} (x : A) l1 l2 :
  occurrences x (l1 ++ l2) = occurrences x l1 + occurrences x l2.
Proof. unfold occurrences. by rewrite filter_app, length_app. Qed.

Lemma occurrences_component_edges (names : list string) source d deps :
  d ∈ names →
  occurrences (depends_on_edge source d)
    (depends_on_edge source <$> filter (λ d', d' ∈ names) deps)
  = occurrences d deps.
Proof.
  intros Hd. unfold occurrences.
  induction deps as [|d' deps IH]; [done|].
  rewrite (filter_cons (λ y, y = d)), (filter_cons (λ d', d' ∈ names)).
  destruct (decide (d' ∈ names)) as [Hin|Hout].
  - rewrite fmap_cons, filter_cons.
    destruct (decide (d' = d)) as [->|Hne].
    + rewrite decide_True by done. simpl. by rewrite IH.
    + rewrite decide_False; [done|]. unfold depends_on_edge. congruence.
  - rewrite decide_False; [done|]. congruence.
Qed.

Lemma occurrences_other_sources (names : list string) source d (l : list Component.t) :
  (∀ c, c ∈ l → Component.name c ≠ source) →
  occurrences (depends_on_edge source d)
    (l ≫= λ a, depends_on_edge (Component.name a)
                 <$> filter (λ d', d' ∈ names) (Component.dependencies a))
  = 0.
Proof.
  intros Hl. unfold occurrences. apply length_zero_iff_nil, elem_of_nil_inv.
  intros e He. apply list_elem_of_filter in He as [-> He].
  apply list_elem_of_bind in He as (a & He & Ha).
  apply list_elem_of_fmap in He as (d' & Heq & _).
  apply (Hl a Ha). unfold depends_on_edge in Heq. congruence.
Qed.

(** ** Claims on the dependency projection *)

(** C1. For components with unique names, with a client that accepts every
    call the dependency pass ends without error, and it emits the edge
    [(a.name, t)] tagged [depends_on] exactly when [t] occurs in
    [a.dependencies] and is the name of a component of the input, names
    being compared as strings; every emitted edge is of this form, so a
    dependency that names no component produces no edge. *)
Theorem depends_on_edge_iff (components : list Component.t) :
  NoDup (Component.name <$> components) →
  (∀ w, (add_component_dependencies reliable components w).2 = Ok ())
  ∧ (∀ a t, a ∈ components →
       depends_on_edge (Component.name a) t ∈ emitted_edges components
       ↔ t ∈ Component.dependencies a ∧ ∃ b, b ∈ components ∧ Component.name b = t)
  ∧ (∀ e, e ∈ emitted_edges components →
       ∃ a b, a ∈ components ∧ b ∈ components
              ∧ Component.name b ∈ Component.dependencies a
              ∧ e = depends_on_edge (Component.name a) (Component.name b)).
Proof.
  intros Hnd. split; [apply add_component_dependencies_reliable|].
  rewrite emitted_edges_in_order. split.
  - intros a t Ha. rewrite elem_of_edges_in_order. split.
    + intros (a' & d & Ha' & Hd & Hin & Heq).
      unfold depends_on_edge in Heq. injection Heq as Hname ->.
      assert (a = a') as <- by eauto using NoDup_name_inj.
      split; [done|]. apply list_elem_of_fmap in Hin as (b & -> & Hb). eauto.
    + intros (Hd & b & Hb & <-). exists a, (Component.name b).
      split_and!; try done. by apply list_elem_of_fmap_2.
  - intros e (a & d & Ha & Hd & Hin & ->)%elem_of_edges_in_order.
    apply list_elem_of_fmap in Hin as (b & -> & Hb). by exists a, b.
Qed.

(** C2. The edges the dependency pass emits are those found by going through
    the components in input order and, within a component, through its
    dependencies in stored order.  With any client and from any world the
    edges of the calls issued are an initial part of that sequence, and all of
    it when the pass returns normally. *)
Theorem emission_order (components : list Component.t) :
  emitted_edges components = edges_in_order components
  ∧ ∀ (graphiti : Graphiti) (w : World),
      ∃ new, issued (add_component_dependencies graphiti components w).1 = issued w ++ new
             ∧ omap edge_of new `prefix_of` edges_in_order components
             ∧ ((add_component_dependencies graphiti components w).2 = Ok () →
                omap edge_of new = edges_in_order components).
Proof.
  split; [apply emitted_edges_in_order|]. intros g w.
  rewrite add_component_dependencies_script.
  destruct (run_script_issued g (dependencies_script components) w) as (new & Hnew & Hpre & Hok).
  exists new. rewrite <- dependencies_script_edges.
  split_and!; [done|by apply omap_prefix|]. intros Hr. by rewrite (Hok Hr).
Qed.

(** C3. No deduplication: a component that lists an internal dependency
    several times gets as many identical edges (exactly as many when names are
    unique); on [A -> [B, B]], [B -> []] the output is the edge [(A, B)]
    twice. *)
Theorem duplicate_edges_kept :
  emitted_edges [component_with "A" ["B"; "B"]; component_with "B" []]
  = [depends_on_edge "A" "B"; depends_on_edge "A" "B"]
  ∧ ∀ (components : list Component.t) a d,
      a ∈ components → d ∈ Component.name <$> components →
      (occurrences d (Component.dependencies a)
       ≤ occurrences (depends_on_edge (Component.name a) d) (emitted_edges components))%nat
      ∧ (NoDup (Component.name <$> components) →
         occurrences (depends_on_edge (Component.name a) d) (emitted_edges components)
         = occurrences d (Component.dependencies a)).
Proof.
  split; [by vm_compute|]. intros components a d Ha Hd.
  rewrite emitted_edges_in_order. unfold edges_in_order.
  set (names := Component.name <$> components) in *.
  destruct (list_elem_of_split _ _ Ha) as (l1 & l2 & Hsplit).
  rewrite Hsplit. rewrite !bind_app, !bind_cons, !occurrences_app.
  rewrite occurrences_component_edges by done. split; [lia|].
  intros Hnd.
  rewrite !occurrences_other_sources; [lia| |].
  - intros c Hc Heq. subst names. rewrite Hsplit in Hnd.
    rewrite fmap_app, fmap_cons in Hnd. apply NoDup_app in Hnd as (_ & _ & Hnd).
    apply NoDup_cons in Hnd as [Hnd _]. apply Hnd. rewrite <- Heq.
    by apply list_elem_of_fmap_2.
  - intros c Hc Heq. subst names. rewrite Hsplit in Hnd.
    rewrite fmap_app, fmap_cons in Hnd. apply NoDup_app in Hnd as (_ & Hnd & _).
    apply (Hnd (Component.name a)); [|left].
    rewrite <- Heq. by apply list_elem_of_fmap_2.
Qed.

(** C4. Self-loops are not filtered: a component whose own name is among its
    dependencies gets an edge to itself; on [A -> [A]] the output is exactly
    the edge [(A, A)]. *)
Theorem self_loop_kept :
  emitted_edges [component_with "A" ["A"]] = [depends_on_edge "A" "A"]
  ∧ ∀ (components : list Component.t) a,
      a ∈ components → Component.name a ∈ Component.dependencies a →
      depends_on_edge (Component.name a) (Component.name a) ∈ emitted_edges components.
Proof.
  split; [by vm_compute|]. intros components a Ha Hself.
  rewrite emitted_edges_in_order. apply elem_of_edges_in_order.
  exists a, (Component.name a). split_and!; try done. by apply list_elem_of_fmap_2.
Qed.

(** ** What a run adds to the trace *)

Lemma written_extend w evs ls :
  written (extend w evs ls) = written w ++ (filter (λ ev, completed ev = true) evs).*1.
Proof. unfold written, extend; simpl. by rewrite filter_app, fmap_app. Qed.

Lemma filter_completed_accepted cs :
  filter (λ ev, completed ev = true) (accepted cs) = accepted cs.
Proof.
  induction cs as [|c cs IH]; [done|].
  unfold accepted in *. rewrite fmap_cons, filter_cons. simpl. by rewrite IH.
Qed.

(** The events a run adds: accepted calls, then at most one refused call;
    together an initial part of the calls of the script. *)
Lemma run_script_trace g s w :
  ∃ done tail,
    trace (run_script g s w).1 = trace w ++ accepted done ++ tail
    ∧ (done ++ tail.*1) `prefix_of` calls_of s
    ∧ (tail = [] ∧ (run_script g s w).2 = Ok () ∧ done = calls_of s
       ∨ ∃ c e, tail = [(c, Raised e)] ∧ (run_script g s w).2 = Raise e
                ∧ g (issued w ++ done) c = Some e).
Proof.
  destruct (run_script_cases g s w) as [->|(pre & c & post & e & -> & Hg & ->)]; simpl.
  - exists (calls_of s), []. rewrite !app_nil_r. split_and!; [done..|]. by left.
  - exists (calls_of pre), [(c, Raised e)]. simpl. split_and!; [done| |].
    + rewrite calls_of_app. simpl. by apply prefix_app, prefix_cons, prefix_nil.
    + right. by exists c, e.
Qed.

Lemma elem_of_accepted ev cs : ev ∈ accepted cs ↔ ev.2 = Done ∧ ev.1 ∈ cs.
Proof.
  unfold accepted. rewrite list_elem_of_fmap. destruct ev as [c o]; simpl. split.
  - intros (c' & [= -> ->] & Hc). done.
  - intros [-> Hc]. by exists c.
Qed.

(** Every call a run issues is a call of the script. *)
Lemma run_script_new_calls g s w :
  ∃ new, trace (run_script g s w).1 = trace w ++ new
         ∧ ∀ ev, ev ∈ new → ev.1 ∈ calls_of s.
Proof.
  destruct (run_script_trace g s w) as (done & tail & Htr & Hpre & _).
  exists (accepted done ++ tail). split; [done|]. intros ev Hev.
  assert (ev.1 ∈ done ++ tail.*1) as Hin.
  { apply elem_of_app in Hev as [Hev|Hev]; apply elem_of_app.
    - left. by apply elem_of_accepted in Hev as [_ ?].
    - right. by apply list_elem_of_fmap_2. }
  destruct Hpre as [k ->]. apply elem_of_app. by left.
Qed.

Lemma planned_calls project features components :
  issued (population_sequence reliable project features components empty_world).1
  = calls_of (population_script project features components).
Proof.
  rewrite (surjective_pairing (population_sequence _ _ _ _ _)). simpl.
  by rewrite population_sequence_script, issued_run_reliable.
Qed.

(** ** Failure of a client call *)

(** C5. A run of the population sequence either has every call accepted, or
    stops at the first call the client refuses: the exception of that call is
    the result of the run, the refused call is the last one issued, the calls
    issued are an initial part of those of a run without failure, and the
    calls accepted before it are added to what was written and stay there. *)
Theorem failure_propagates (graphiti : Graphiti) (project : SoftwareProject.t)
    (features : list Feature.t) (components : list Component.t) (w : World) :
  let run := population_sequence graphiti project features components w in
  let planned :=
    issued (population_sequence reliable project features components empty_world).1 in
  (run.2 = Ok () ∧ trace run.1 = trace w ++ accepted planned
   ∧ written run.1 = written w ++ planned)
  ∨ ∃ done c e,
      graphiti (issued w ++ done) c = Some e
      ∧ run.2 = Raise e
      ∧ (done ++ [c]) `prefix_of` planned
      ∧ trace run.1 = trace w ++ accepted done ++ [(c, Raised e)]
      ∧ written run.1 = written w ++ done.
Proof.
  cbv zeta. rewrite planned_calls, population_sequence_script.
  destruct (run_script_cases graphiti (population_script project features components) w)
    as [->|(pre & c & post & e & -> & Hg & ->)]; cbn [fst snd].
  - left. split_and!; [done..|].
    by rewrite written_extend, filter_completed_accepted, accepted_fst.
  - right. exists (calls_of pre), c, e. split_and!; [done..| |done|].
    + rewrite calls_of_app. simpl. by apply prefix_app, prefix_cons, prefix_nil.
    + rewrite written_extend, filter_app, filter_completed_accepted, fmap_app, accepted_fst.
      simpl. by rewrite app_nil_r.
Qed.

(** A run against a client that refuses the third call. *)
Example population_stops_at_failure :
  let run := population_sequence (failing_at 2 "store unavailable")
               AGENTFORGE_PROJECT AGENTFORGE_FEATURES AGENTFORGE_COMPONENTS empty_world in
  run.2 = Raise "store unavailable"
  ∧ length (issued run.1) = 3
  ∧ omap entity_name (written run.1) = ["AgentForge"; "Workflow Builder"]
  ∧ last (trace run.1)
    = Some (AddRelationship "AgentForge" "Workflow Builder" "has_feature"
              "AgentForge includes the Workflow Builder feature", Raised "store unavailable").
Proof. by vm_compute. Qed.

(** ** Entities before relationships *)

Lemma ordered_from_mono seen seen' cs :
  seen ⊆ seen' → ordered_from seen cs → ordered_from seen' cs.
Proof.
  revert seen seen'.
  induction cs as [|[n et sm md|s t ty fact] cs IH]; simpl; intros seen seen' Hsub H; [done| |].
  - apply (IH ({[n]} ∪ seen)); [by apply union_mono_l|done].
  - destruct H as (Hs & Ht & H). split_and!; [by apply Hsub..|]. eauto.
Qed.

Lemma ordered_from_app seen l1 l2 :
  ordered_from seen l1 →
  ordered_from (list_to_set (omap entity_name l1) ∪ seen) l2 →
  ordered_from seen (l1 ++ l2).
Proof.
  revert seen.
  induction l1 as [|[n et sm md|s t ty fact] l1 IH]; simpl; intros seen H1 H2.
  - apply (ordered_from_mono (∅ ∪ seen)); [|done].
    apply union_least; [apply empty_subseteq|done].
  - apply IH; [done|].
    apply (ordered_from_mono (({[n]} ∪ list_to_set (omap entity_name l1)) ∪ seen)); [|done].
    intros x. rewrite !elem_of_union. tauto.
  - destruct H1 as (Hs & Ht & H1). split_and!; [done..|]. by apply IH.
Qed.

Lemma ordered_from_prefix seen l1 l2 :
  ordered_from seen (l1 ++ l2) → ordered_from seen l1.
Proof.
  revert seen.
  induction l1 as [|[n et sm md|s t ty fact] l1 IH]; simpl; intros seen H; [done| |].
  - by apply IH.
  - destruct H as (Hs & Ht & H). split_and!; [done..|]. by apply IH.
Qed.

Lemma ordered_from_relationships seen l :
  (∀ c, c ∈ l → ∃ s t ty fact, c = AddRelationship s t ty fact ∧ s ∈ seen ∧ t ∈ seen) →
  ordered_from seen l.
Proof.
  induction l as [|c l IH]; intros Hl; [done|].
  destruct (Hl c) as (s & t & ty & fact & -> & Hs & Ht); [by left|].
  simpl. split_and!; [done..|]. apply IH. intros c' Hc'. apply Hl. by right.
Qed.

Lemma ordered_from_lookup seen cs i s t ty fact x :
  ordered_from seen cs → cs !! i = Some (AddRelationship s t ty fact) →
  x = s ∨ x = t →
  x ∈ seen ∨ ∃ j et sm md, j < i ∧ cs !! j = Some (AddEntity x et sm md).
Proof.
  revert seen i. induction cs as [|c cs IH]; intros seen i H Hi Hx; [done|].
  destruct i as [|i]; simpl in Hi.
  - injection Hi as ->. destruct H as (Hs & Ht & _). left. by destruct Hx as [->| ->].
  - destruct c as [n et sm md|s' t' ty' fact']; simpl in H.
    + destruct (IH _ _ H Hi Hx) as [Hin|(j & et' & sm' & md' & Hj & Hl)].
      * apply elem_of_union in Hin as [->%elem_of_singleton|Hin]; [|by left].
        right. exists 0, et, sm, md. split; [lia|done].
      * right. exists (S j), et', sm', md'. split; [lia|done].
    + destruct H as (_ & _ & H).
      destruct (IH _ _ H Hi Hx) as [Hin|(j & et' & sm' & md' & Hj & Hl)]; [by left|].
      right. exists (S j), et', sm', md'. split; [lia|done].
Qed.

Lemma features_ordered seen project_name features :
  project_name ∈ seen →
  ordered_from seen (calls_of (features ≫= feature_script project_name)).
Proof.
  revert seen. induction features as [|f fs IH]; intros seen Hpn; [done|].
  rewrite bind_cons, calls_of_app.
  change (calls_of (feature_script project_name f) ++ ?l)
    with (AddEntity (Feature.name f) "feature" (Feature.description f)
            (model_dump (Feature.fields f) true)
          :: AddRelationship project_name (Feature.name f) "has_feature"
               (project_name +:+ " includes the " +:+ Feature.name f +:+ " feature") :: l).
  cbn [ordered_from]. split_and!; [set_solver..|]. apply IH. set_solver.
Qed.

Lemma components_ordered seen project_name components :
  project_name ∈ seen →
  ordered_from seen (calls_of (components ≫= component_script project_name)).
Proof.
  revert seen. induction components as [|c cs IH]; intros seen Hpn; [done|].
  rewrite bind_cons, calls_of_app.
  change (calls_of (component_script project_name c) ++ ?l)
    with (AddEntity (Component.name c) "component" (Component.description c)
            (model_dump (Component.fields c) true)
          :: AddRelationship project_name (Component.name c) "has_component"
               (project_name +:+ " contains the " +:+ Component.name c +:+ " component") :: l).
  cbn [ordered_from]. split_and!; [set_solver..|]. apply IH. set_solver.
Qed.

Lemma components_entities project_name components :
  omap entity_name (calls_of (components ≫= component_script project_name))
  = Component.name <$> components.
Proof.
  induction components as [|c cs IH]; [done|].
  rewrite bind_cons, calls_of_app, omap_app, IH. done.
Qed.

Lemma elem_of_dependencies_calls components c :
  c ∈ calls_of (dependencies_script components) →
  ∃ a d, a ∈ components ∧ d ∈ Component.dependencies a
         ∧ d ∈ Component.name <$> components
         ∧ c = AddRelationship (Component.name a) d "depends_on"
                 (Component.name a +:+ " depends on " +:+ d).
Proof.
  unfold calls_of, dependencies_script. intros (act & Hact & Hc)%list_elem_of_omap.
  apply list_elem_of_bind in Hact as (a & Hact & Ha).
  apply list_elem_of_bind in Hact as (d & Hact & Hd).
  unfold dependency_script in Hact. case_decide as Hin; [|by apply elem_of_nil in Hact].
  apply elem_of_list_to_set in Hin. exists a, d. split_and!; [done..|].
  apply elem_of_cons in Hact as [->|Hact]; [by injection Hc as <-|].
  apply elem_of_cons in Hact as [->|Hact]; [done|]. by apply elem_of_nil in Hact.
Qed.

Lemma population_ordered project features components :
  ordered_from ∅ (calls_of (population_script project features components)).
Proof.
  unfold population_script. rewrite !calls_of_app.
  change (calls_of (project_script project) ++ ?l)
    with (AddEntity (SoftwareProject.name project) "software_project"
            (SoftwareProject.description project)
            (model_dump (SoftwareProject.fields project) true) :: l).
  cbn [ordered_from].
  apply ordered_from_app; [apply features_ordered; set_solver|].
  apply ordered_from_app; [apply components_ordered; set_solver|].
  rewrite components_entities. apply ordered_from_relationships.
  intros c (a & d & Ha & _ & Hd & ->)%elem_of_dependencies_calls.
  do 4 eexists. split; [done|]. split.
  - apply elem_of_union_l, elem_of_list_to_set. by apply list_elem_of_fmap_2.
  - by apply elem_of_union_l, elem_of_list_to_set.
Qed.

(** C6. In a run of the population sequence, with any client and from any
    world, every name passed as source or target of a relationship call was
    registered by an entity call that the same run issued earlier and that
    completed. *)
Theorem entities_precede_relationships (graphiti : Graphiti) (project : SoftwareProject.t)
    (features : list Feature.t) (components : list Component.t) (w : World) :
  ∃ new,
    trace (population_sequence graphiti project features components w).1 = trace w ++ new
    ∧ ∀ i s t ty fact o x,
        new !! i = Some (AddRelationship s t ty fact, o) → x = s ∨ x = t →
        ∃ j et sm md, j < i ∧ new !! j = Some (AddEntity x et sm md, Done).
Proof.
  rewrite population_sequence_script.
  destruct (run_script_trace graphiti (population_script project features components) w)
    as (done & tail & Htr & Hpre & Hcase).
  exists (accepted done ++ tail). split; [done|].
  assert (ordered_from ∅ (done ++ tail.*1)) as Hord.
  { destruct Hpre as [k Hk]. apply (ordered_from_prefix _ _ k). rewrite <- Hk.
    apply population_ordered. }
  assert (length tail ≤ 1) as Htail.
  { destruct Hcase as [(-> & _)|(c & e & -> & _)]; simpl; lia. }
  intros i s t ty fact o x Hi Hx.
  assert ((done ++ tail.*1) !! i = Some (AddRelationship s t ty fact)) as Hi'.
  { rewrite <- (accepted_fst done), <- fmap_app, list_lookup_fmap, Hi. done. }
  destruct (ordered_from_lookup _ _ _ _ _ _ _ _ Hord Hi' Hx)
    as [Hin|(j & et & sm & md & Hj & Hl)]; [set_solver|].
  exists j, et, sm, md. split; [done|].
  apply lookup_lt_Some in Hi. rewrite length_app in Hi.
  unfold accepted in *. rewrite length_fmap in Hi.
  assert (j < length done) as Hlt by lia.
  rewrite lookup_app_l in Hl by done.
  rewrite lookup_app_l by (by rewrite length_fmap).
  by rewrite list_lookup_fmap, Hl.
Qed.

(** ** Frame of the dependency pass *)

(** C8. With any client and from any world, every call the dependency pass
    issues is an [add_relationship] of type [depends_on]; it issues no
    [add_entity], so the entities registered are those registered before. *)
Theorem dependency_pass_only_depends_on (graphiti : Graphiti)
    (components : list Component.t) (w : World) :
  ∃ new,
    trace (add_component_dependencies graphiti components w).1 = trace w ++ new
    ∧ (∀ ev, ev ∈ new → ∃ s t fact, ev.1 = AddRelationship s t "depends_on" fact)
    ∧ omap entity_name (issued (add_component_dependencies graphiti components w).1)
      = omap entity_name (issued w).
Proof.
  rewrite add_component_dependencies_script.
  destruct (run_script_new_calls graphiti (dependencies_script components) w)
    as (new & Htr & Hnew).
  assert (∀ ev, ev ∈ new → ∃ s t fact, ev.1 = AddRelationship s t "depends_on" fact) as Hdep.
  { intros ev Hev.
    destruct (elem_of_dependencies_calls _ _ (Hnew ev Hev)) as (a & d & _ & _ & _ & ->).
    by do 3 eexists. }
  exists new. split_and!; [done..|].
  unfold issued. rewrite Htr, fmap_app, omap_app.
  rewrite <- (app_nil_r (omap entity_name (trace w).*1)) at 2. f_equal.
  apply elem_of_nil_inv. intros n (c & Hc & Hn)%list_elem_of_omap.
  apply list_elem_of_fmap in Hc as (ev & -> & Hev).
  destruct (Hdep ev Hev) as (s & t & fact & Heq). by rewrite Heq in Hn.
Qed.

(** ** Metadata *)

Lemma elem_of_model_dump fields k v :
  (k, v) ∈ model_dump fields true ↔ (k, v) ∈ fields ∧ v ≠ PyNone.
Proof.
  unfold model_dump. rewrite list_elem_of_filter. simpl.
  split; intros [H1 H2]; split; try done; by destruct v.
Qed.

Lemma project_calls_metadata project c :
  c ∈ calls_of (project_script project) → metadata_without_none c.
Proof.
  intros [->|Hc%elem_of_nil]%elem_of_cons; [|done].
  intros k v Hkv. by apply elem_of_model_dump in Hkv as [_ ?].
Qed.

Lemma features_calls_metadata project_name features c :
  c ∈ calls_of (features ≫= feature_script project_name) → metadata_without_none c.
Proof.
  unfold calls_of. intros (act & Hact & Hc)%list_elem_of_omap.
  apply list_elem_of_bind in Hact as (f & Hact & _).
  unfold feature_script in Hact. rewrite !elem_of_cons, elem_of_nil in Hact.
  destruct Hact as [->|[->|[->|[]]]]; simplify_eq/=; [|done].
  intros k v Hkv. by apply elem_of_model_dump in Hkv as [_ ?].
Qed.

Lemma components_calls_metadata project_name components c :
  c ∈ calls_of (components ≫= component_script project_name) → metadata_without_none c.
Proof.
  unfold calls_of. intros (act & Hact & Hc)%list_elem_of_omap.
  apply list_elem_of_bind in Hact as (f & Hact & _).
  unfold component_script in Hact. rewrite !elem_of_cons, elem_of_nil in Hact.
  destruct Hact as [->|[->|[->|[]]]]; simplify_eq/=; [|done].
  intros k v Hkv. by apply elem_of_model_dump in Hkv as [_ ?].
Qed.

(** C9. With any client and from any world, the metadata of every entity
    call issued by [populate_project], [populate_features] and
    [populate_components] has no entry whose value is [None]; the dump with
    [exclude_none] keeps exactly the fields of the record that are set. *)
Theorem metadata_excludes_none (graphiti : Graphiti) (project : SoftwareProject.t)
    (project_name : string) (features : list Feature.t) (components : list Component.t)
    (w : World) :
  (∃ new, trace (populate_project graphiti project w).1 = trace w ++ new
          ∧ ∀ ev, ev ∈ new → metadata_without_none ev.1)
  ∧ (∃ new, trace (populate_features graphiti project_name features w).1 = trace w ++ new
            ∧ ∀ ev, ev ∈ new → metadata_without_none ev.1)
  ∧ (∃ new, trace (populate_components graphiti project_name components w).1 = trace w ++ new
            ∧ ∀ ev, ev ∈ new → metadata_without_none ev.1)
  ∧ (∀ fields k v, (k, v) ∈ model_dump fields true ↔ (k, v) ∈ fields ∧ v ≠ PyNone).
Proof.
  split_and!.
  - rewrite populate_project_script.
    destruct (run_script_new_calls graphiti (project_script project) w) as (new & Htr & Hnew).
    exists new. eauto using project_calls_metadata.
  - rewrite populate_features_script.
    destruct (run_script_new_calls graphiti (features ≫= feature_script project_name) w)
      as (new & Htr & Hnew).
    exists new. eauto using features_calls_metadata.
  - rewrite populate_components_script.
    destruct (run_script_new_calls graphiti (components ≫= component_script project_name) w)
      as (new & Htr & Hnew).
    exists new. eauto using components_calls_metadata.
  - apply elem_of_model_dump.
Qed.

(** The third feature of the example has no release version: the key is absent. *)
Example unset_field_is_omitted :
  (λ f, (model_dump (Feature.fields f) true).*1) <$> AGENTFORGE_FEATURES !! 2
  = Some ["name"; "status"; "priority"; "description"].
Proof. by vm_compute. Qed.

(** ** Effects of the dependency pass *)

Lemma paired_app s1 s2 : paired s1 → paired s2 → paired (s1 ++ s2).
Proof. induction 1; simpl; [done|]. intros. constructor. auto. Qed.

Lemma paired_bind {A} (f : A → list Action) (l : list A) :
  (∀ x, paired (f x)) → paired (l ≫= f).
Proof.
  intros Hf. induction l as [|x l IH]; [constructor|].
  rewrite bind_cons. by apply paired_app.
Qed.

Lemma dependencies_script_paired components : paired (dependencies_script components).
Proof.
  unfold dependencies_script. apply paired_bind. intros a. apply paired_bind. intros d.
  unfold dependency_script. case_decide; repeat constructor.
Qed.

Lemma paired_lines s : paired s → length (lines_of s) = length (calls_of s).
Proof. induction 1; simpl; [done|]. unfold lines_of, calls_of in *. lia. Qed.

Lemma paired_before_call s pre c post :
  paired s → s = pre ++ Awaits c :: post →
  length (lines_of pre) = length (calls_of pre).
Proof.
  intros Hs. revert pre. induction Hs as [|c' line s Hs IH]; intros pre Heq.
  - by destruct pre.
  - destruct pre as [|a [|a' pre]]; [done|by simplify_eq/=|].
    simplify_eq/=. unfold lines_of, calls_of in *. simpl. f_equal. by apply IH.
Qed.

(** C7, as the code has it.  The dependency pass always ends.  What it
    changes in the world is the trace, extended by the [depends_on] calls it
    awaits, and the console, extended by one line for each call accepted.  It
    ends normally unless the client refuses a call; then it ends with the
    exception of that call, which is the last one issued.  With a client that
    accepts every call it ends normally. *)
Theorem dependency_pass_effects (graphiti : Graphiti) (components : list Component.t)
    (w : World) :
  (∃ done tail lines,
     (add_component_dependencies graphiti components w).1
     = extend w (accepted done ++ tail) lines
     ∧ length lines = length done
     ∧ (∀ c, c ∈ done ++ tail.*1 → is_depends_on c)
     ∧ (tail = [] ∧ (add_component_dependencies graphiti components w).2 = Ok ()
        ∨ ∃ c e, tail = [(c, Raised e)]
                 ∧ (add_component_dependencies graphiti components w).2 = Raise e
                 ∧ graphiti (issued w ++ done) c = Some e))
  ∧ (add_component_dependencies reliable components w).2 = Ok ().
Proof.
  split; [|apply add_component_dependencies_reliable].
  rewrite add_component_dependencies_script.
  pose proof (dependencies_script_paired components) as Hp.
  assert (∀ c, c ∈ calls_of (dependencies_script components) → is_depends_on c) as Hdep.
  { intros c (a & d & _ & _ & _ & ->)%elem_of_dependencies_calls. done. }
  destruct (run_script_cases graphiti (dependencies_script components) w)
    as [->|(pre & c & post & e & Heq & Hg & ->)]; cbn [fst snd].
  - exists (calls_of (dependencies_script components)), [], (lines_of (dependencies_script components)).
    rewrite !app_nil_r. split_and!; [done|by apply paired_lines|done|by left].
  - exists (calls_of pre), [(c, Raised e)], (lines_of pre).
    split_and!; [done|by eapply paired_before_call| |right; by exists c, e].
    intros c' Hc'. apply Hdep. rewrite Heq, calls_of_app. simpl.
    apply elem_of_app in Hc' as [Hc'|Hc']; apply elem_of_app; [by left|right].
    apply list_elem_of_singleton in Hc' as ->. by left.
Qed.

(** C7, as the specification has it, fails: on [A -> [A]] the pass prints a
    line on the console, and with a client that refuses the call it ends with
    the exception of the client. *)
Lemma dependency_pass_prints_and_may_raise :
  console (add_component_dependencies reliable [component_with "A" ["A"]] empty_world).1
  ≠ console empty_world
  ∧ (add_component_dependencies (unavailable "store unavailable")
       [component_with "A" ["A"]] empty_world).2
    = Raise "store unavailable".
Proof. split; [intros H; by vm_compute in H|by vm_compute]. Qed.

(** ** Defaults of the record classes *)

(** C10. A project built without [status] is [active], a feature built
    without [status] is [planned], a component built without [dependencies]
    has none; and when every component of a given name was built without
    [dependencies], the dependency pass emits no edge with that name as
    source. *)
Theorem constructor_defaults :
  (∀ n kw, SoftwareProject.kw_status kw = None →
     SoftwareProject.status (SoftwareProject.new n kw) = ACTIVE
     ∧ ProjectStatus_value (SoftwareProject.status (SoftwareProject.new n kw)) = "active")
  ∧ (∀ n kw, Feature.kw_status kw = None →
       Feature.status (Feature.new n kw) = PLANNED
       ∧ FeatureStatus_value (Feature.status (Feature.new n kw)) = "planned")
  ∧ (∀ n kw, Component.kw_dependencies kw = None →
       Component.dependencies (Component.new n kw) = [])
  ∧ (∀ (components : list Component.t) n,
       (∀ c, c ∈ components → Component.name c = n →
          ∃ kw, Component.kw_dependencies kw = None ∧ c = Component.new n kw) →
       ∀ source target ty, (source, target, ty) ∈ emitted_edges components → source ≠ n).
Proof.
  split_and!.
  - intros n kw Hkw. unfold SoftwareProject.new; simpl. by rewrite Hkw.
  - intros n kw Hkw. unfold Feature.new; simpl. by rewrite Hkw.
  - intros n kw Hkw. unfold Component.new; simpl. by rewrite Hkw.
  - intros components n Hn source target ty He ->.
    rewrite emitted_edges_in_order in He.
    apply elem_of_edges_in_order in He as (a & d & Ha & Hd & _ & Heq).
    injection Heq as Hname _ _.
    destruct (Hn a Ha (eq_sym Hname)) as (kw & Hkw & ->).
    unfold Component.new in Hd; simpl in Hd. rewrite Hkw in Hd. by apply elem_of_nil in Hd.
Qed.

(** ** The claims at concrete inputs *)

Lemma scenario_1_names_unique : NoDup (Component.name <$> scenario_1).
Proof. apply (bool_decide_unpack _). by vm_compute. Defined.

(** Names are compared exactly: [b] is not [B]. *)
Example names_are_case_sensitive :
  emitted_edges [component_with "A" ["b"]; component_with "B" []] = [].
Proof. by vm_compute. Qed.

(** Scenario 1: [A] gets its edge to [B]; the external [X] gives none. *)
Lemma depends_on_edge_iff_witness :
  NoDup (Component.name <$> scenario_1)
  ∧ depends_on_edge "A" "B" ∈ emitted_edges scenario_1
  ∧ depends_on_edge "A" "X" ∉ emitted_edges scenario_1.
Proof.
  destruct (depends_on_edge_iff scenario_1 scenario_1_names_unique) as (_ & Hiff & _).
  split; [exact scenario_1_names_unique|]. split.
  - apply (Hiff (component_with "A" ["B"; "X"]) "B"); [by left|].
    split; [by left|]. exists (component_with "B" []). split; [|done]. right. by left.
  - intros H. apply (Hiff (component_with "A" ["B"; "X"]) "X") in H; [|by left].
    destruct H as (_ & b & Hb & Hname).
    apply elem_of_cons in Hb as [->|Hb]; [discriminate Hname|].
    apply list_elem_of_singleton in Hb as ->. discriminate Hname.
Defined.

Lemma duplicate_edges_kept_witness :
  occurrences (depends_on_edge "A" "B")
    (emitted_edges [component_with "A" ["B"; "B"]; component_with "B" []])
  = 2.
Proof.
  destruct duplicate_edges_kept as [_ H].
  refine (proj2 (H [component_with "A" ["B"; "B"]; component_with "B" []]
                   (component_with "A" ["B"; "B"]) "B" _ _) _).
  - by left.
  - right. by left.
  - apply (bool_decide_unpack _). by vm_compute.
Defined.

Lemma self_loop_kept_witness :
  depends_on_edge "B" "B"
  ∈ emitted_edges [component_with "A" ["B"]; component_with "B" ["A"; "B"]].
Proof.
  destruct self_loop_kept as [_ H].
  apply (H [component_with "A" ["B"]; component_with "B" ["A"; "B"]]
           (component_with "B" ["A"; "B"])).
  - right. by left.
  - right. by left.
Defined.

Lemma constructor_defaults_witness :
  SoftwareProject.status (SoftwareProject.new "P" SoftwareProject.no_kwargs) = ACTIVE
  ∧ Feature.status (Feature.new "F" Feature.no_kwargs) = PLANNED
  ∧ Component.dependencies (Component.new "C" Component.no_kwargs) = []
  ∧ depends_on_edge "C" "D"
    ∉ emitted_edges [Component.new "C" Component.no_kwargs; component_with "D" ["C"]].
Proof.
  destruct constructor_defaults as (Hp & Hf & Hc & He).
  split_and!.
  - by apply Hp.
  - by apply Hf.
  - by apply Hc.
  - intros Hin. apply (He _ "C") in Hin; [done|].
    intros c Hc' Hname. exists Component.no_kwargs. split; [done|].
    apply elem_of_cons in Hc' as [->|Hc']; [done|].
    apply list_elem_of_singleton in Hc' as ->. discriminate Hname.
Defined.

(** ** Progress of the item loops *)

Lemma bind_ok {A B} (m : M A) (k : A → M B) w w' a :
  m w = (w', Ok a) → bind m k w = k a w'.
Proof. intros H. unfold bind. by rewrite H. Qed.

Lemma bind_raise {A B} (m : M A) (k : A → M B) w w' e :
  m w = (w', Raise e) → bind m k w = (w', Raise e).
Proof. intros H. unfold bind. by rewrite H. Qed.

Lemma for_each_two_calls_run {A} g (xs : list A) (first second : A → Call)
    (line : A → string) w :
  ∃ k tail r,
    k ≤ length xs
    ∧ for_each xs (λ x, await g (first x) ;; await g (second x) ;; print (line x)) w
      = (extend w (accepted (take k xs ≫= λ x, [first x; second x]) ++ tail)
           (line <$> take k xs), r)
    ∧ (tail = [] ∧ k = length xs ∧ r = Ok ()
       ∨ ∃ x e, xs !! k = Some x ∧ r = Raise e
                ∧ (tail = [(first x, Raised e)]
                   ∨ tail = [(first x, Done); (second x, Raised e)])).
Proof.
  revert w. induction xs as [|x xs IH]; intros w.
  - exists 0, [], (Ok ()). simpl. unfold ret. rewrite extend_nil.
    split_and!; [done..|]. by left.
  - cbn [for_each].
    destruct (g (issued w) (first x)) as [e|] eqn:H1.
    { exists 0, [(first x, Raised e)], (Raise e). split; [simpl; lia|]. split.
      - apply bind_raise. apply bind_raise. by apply await_raised.
      - right. exists x, e. split_and!; [done..|]. by left. }
    destruct (g (issued (extend w [(first x, Done)] [])) (second x)) as [e|] eqn:H2.
    { exists 0, [(first x, Done); (second x, Raised e)], (Raise e).
      split; [simpl; lia|]. split.
      - apply bind_raise. erewrite bind_ok by (by apply await_accepted).
        apply bind_raise. rewrite (await_raised _ _ e) by done.
        by rewrite extend_extend.
      - right. exists x, e. split_and!; [done..|]. by right. }
    destruct (IH (extend w [(first x, Done); (second x, Done)] [line x]))
      as (k & tail & r & Hk & Hw & Hcase).
    exists (S k), tail, r. split; [simpl; lia|]. split.
    + erewrite bind_ok; [rewrite Hw, extend_extend; done|].
      erewrite bind_ok by (by apply await_accepted).
      erewrite bind_ok by (by apply await_accepted).
      by rewrite print_extend, !extend_extend.
    + destruct Hcase as [(-> & -> & ->)|(y & e & Hy & -> & Htail)]; [by left|].
      right. by exists y, e.
Qed.

(** A loop that awaits two calls and prints a line for each item handles an
    initial part of the items completely; it then either is through, or stops
    in the next item at the first or at the second call. *)
Lemma for_each_two_calls {A} g (xs : list A) (first second : A → Call) (line : A → string) w :
  let run := for_each xs (λ x, await g (first x) ;; await g (second x) ;; print (line x)) w in
  ∃ k tail,
    k ≤ length xs
    ∧ run.1 = extend w (accepted (take k xs ≫= λ x, [first x; second x]) ++ tail)
                (line <$> take k xs)
    ∧ (tail = [] ∧ k = length xs ∧ run.2 = Ok ()
       ∨ ∃ x e, xs !! k = Some x ∧ run.2 = Raise e
                ∧ (tail = [(first x, Raised e)]
                   ∨ tail = [(first x, Done); (second x, Raised e)])).
Proof.
  cbv zeta.
  destruct (for_each_two_calls_run g xs first second line w)
    as (k & tail & r & Hk & -> & Hcase).
  by exists k, tail.
Qed.

(** X1. With any client and from any world, [populate_features] handles the
    features in order, one at a time: for the first [k] of them the entity and
    its [has_feature] link from the project were accepted and the progress
    line was printed.  Either that is all of them and the run ends normally,
    or the run ends with the exception of the client inside feature [k]: at its
    entity call, or at its link call with the entity already written and left
    without link.  Nothing is printed for that feature. *)
Theorem populate_features_progress (graphiti : Graphiti) (project_name : string)
    (features : list Feature.t) (w : World) :
  ∃ k tail,
    k ≤ length features
    ∧ (populate_features graphiti project_name features w).1
      = extend w
          (accepted (take k features ≫= λ f, [feature_entity f; feature_link project_name f])
           ++ tail)
          (feature_line <$> take k features)
    ∧ (tail = [] ∧ k = length features
       ∧ (populate_features graphiti project_name features w).2 = Ok ()
       ∨ ∃ f e, features !! k = Some f
                ∧ (populate_features graphiti project_name features w).2 = Raise e
                ∧ (tail = [(feature_entity f, Raised e)]
                   ∨ tail = [(feature_entity f, Done);
                             (feature_link project_name f, Raised e)])).
Proof.
  apply (for_each_two_calls graphiti features feature_entity
           (feature_link project_name) feature_line w).
Qed.

(** X2. The same for [populate_components]: the first [k] components have
    their entity and [has_component] link accepted and their line printed;
    a failure leaves at most the entity of component [k] written without its
    link, and no line for it. *)
Theorem populate_components_progress (graphiti : Graphiti) (project_name : string)
    (components : list Component.t) (w : World) :
  ∃ k tail,
    k ≤ length components
    ∧ (populate_components graphiti project_name components w).1
      = extend w
          (accepted (take k components
                       ≫= λ c, [component_entity c; component_link project_name c])
           ++ tail)
          (component_line <$> take k components)
    ∧ (tail = [] ∧ k = length components
       ∧ (populate_components graphiti project_name components w).2 = Ok ()
       ∨ ∃ c e, components !! k = Some c
                ∧ (populate_components graphiti project_name components w).2 = Raise e
                ∧ (tail = [(component_entity c, Raised e)]
                   ∨ tail = [(component_entity c, Done);
                             (component_link project_name c, Raised e)])).
Proof.
  apply (for_each_two_calls graphiti components component_entity
           (component_link project_name) component_line w).
Qed.

(** A client that refuses the fourth call leaves the second feature
    registered without its link. *)
Example feature_left_without_link :
  let run := populate_features (failing_at 3 "timeout") "AgentForge" AGENTFORGE_FEATURES
               empty_world in
  run.2 = Raise "timeout"
  ∧ omap entity_name (written run.1) = ["Workflow Builder"; "Feed System"]
  ∧ omap edge_of (written run.1) = [("AgentForge", "Workflow Builder", "has_feature")]
  ∧ length (console run.1) = 1.
Proof. by vm_compute. Qed.

(** ** Runs that issue nothing, and sizes of runs *)

Lemma bind_nil_all {A B} (f : A → list B) (l : list A) :
  (∀ x, x ∈ l → f x = []) → l ≫= f = [].
Proof.
  induction l as [|x l IH]; intros H; [done|].
  rewrite bind_cons, (H x) by (by left). simpl. apply IH. intros y Hy. apply H. by right.
Qed.

(** X3. When no dependency of any component is the name of a component of the
    input, the dependency pass does nothing at all: no call, no line, normal
    end, with any client, also one that would refuse every call. *)
Theorem external_dependencies_only (graphiti : Graphiti) (components : list Component.t)
    (w : World) :
  (∀ a d, a ∈ components → d ∈ Component.dependencies a →
          d ∉ Component.name <$> components) →
  add_component_dependencies graphiti components w = (w, Ok ()).
Proof.
  intros Hext. rewrite add_component_dependencies_script.
  assert (dependencies_script components = []) as ->; [|done].
  unfold dependencies_script. apply bind_nil_all. intros a Ha.
  apply bind_nil_all. intros d Hd. unfold dependency_script.
  rewrite decide_False; [done|]. rewrite elem_of_list_to_set. by apply (Hext a).
Qed.

(** The components of the example depend on external libraries only. *)
Lemma external_dependencies_only_witness :
  add_component_dependencies (unavailable "store unavailable") AGENTFORGE_COMPONENTS empty_world
  = (empty_world, Ok ()).
Proof.
  apply external_dependencies_only. intros a d Ha Hd.
  repeat (apply elem_of_cons in Ha as [->|Ha]);
    [..|by apply elem_of_nil in Ha];
    simpl in Hd;
    repeat (apply elem_of_cons in Hd as [->|Hd]);
    try (by apply elem_of_nil in Hd);
    apply (bool_decide_unpack _); by vm_compute.
Defined.

Lemma two_calls_length {A} (f : A → list Action) (l : list A) n m :
  (∀ x, length (calls_of (f x)) = n) → (∀ x, length (lines_of (f x)) = m) →
  length (calls_of (l ≫= f)) = n * length l ∧ length (lines_of (l ≫= f)) = m * length l.
Proof.
  intros Hn Hm. induction l as [|x l [IHc IHl]]; [simpl; lia|].
  rewrite bind_cons, calls_of_app, lines_of_app, !length_app, IHc, IHl, Hn, Hm. simpl. lia.
Qed.

Lemma omap_edge_of_length (l : list Call) :
  (∀ c, c ∈ l → is_depends_on c) → length (omap edge_of l) = length l.
Proof.
  induction l as [|c l IH]; intros H; [done|].
  assert (is_depends_on c) as Hc by (apply H; by left).
  destruct c; [done|]. simpl. f_equal. apply IH. intros c' Hc'. apply H. by right.
Qed.

Lemma dependencies_calls_length components :
  length (calls_of (dependencies_script components)) = length (emitted_edges components).
Proof.
  rewrite emitted_edges_in_order, <- dependencies_script_edges, omap_edge_of_length; [done|].
  by intros c (a & d & _ & _ & _ & ->)%elem_of_dependencies_calls.
Qed.

Lemma population_script_sizes project features components :
  length (calls_of (population_script project features components))
  = 1 + 2 * length features + 2 * length components + length (emitted_edges components)
  ∧ length (lines_of (population_script project features components))
    = 1 + length features + length components + length (emitted_edges components).
Proof.
  unfold population_script. rewrite !calls_of_app, !lines_of_app, !length_app.
  destruct (two_calls_length (feature_script (SoftwareProject.name project)) features 2 1)
    as [-> ->]; [done..|].
  destruct (two_calls_length (component_script (SoftwareProject.name project)) components 2 1)
    as [-> ->]; [done..|].
  rewrite (paired_lines _ (dependencies_script_paired components)).
  rewrite dependencies_calls_length. simpl. lia.
Qed.

(** X4. A run of the population sequence issues at most one call for the
    project, two for each feature, two for each component and one for each
    internal dependency, and prints at most one line for each of these items;
    when it ends normally it issues and prints exactly that many, and every
    call was accepted. *)
Theorem population_size (graphiti : Graphiti) (project : SoftwareProject.t)
    (features : list Feature.t) (components : list Component.t) (w : World) :
  let run := population_sequence graphiti project features components w in
  let calls :=
    1 + 2 * length features + 2 * length components + length (emitted_edges components) in
  let lines := 1 + length features + length components + length (emitted_edges components) in
  ∃ new printed,
    run.1 = extend w new printed
    ∧ length new ≤ calls ∧ length printed ≤ lines
    ∧ (run.2 = Ok () →
       length new = calls ∧ length printed = lines ∧ written run.1 = written w ++ new.*1).
Proof.
  cbv zeta. rewrite population_sequence_script.
  destruct (population_script_sizes project features components) as [<- <-].
  destruct (run_script_cases graphiti (population_script project features components) w)
    as [->|(pre & c & post & e & -> & Hg & ->)]; cbn [fst snd].
  - eexists _, _. split; [done|]. unfold accepted. rewrite length_fmap.
    split_and!; [lia..|]. intros _. split_and!; [done..|].
    rewrite written_extend. fold (accepted (calls_of (population_script project features components))).
    by rewrite filter_completed_accepted.
  - eexists _, _. split; [done|].
    rewrite calls_of_app, lines_of_app, !length_app. unfold accepted. rewrite length_fmap.
    simpl. split_and!; [lia..|done].
Qed.

Lemma population_size_witness :
  length (issued (population_sequence reliable AGENTFORGE_PROJECT AGENTFORGE_FEATURES
                    scenario_1 empty_world).1) = 14.
Proof.
  destruct (population_size reliable AGENTFORGE_PROJECT AGENTFORGE_FEATURES scenario_1
              empty_world) as (new & printed & Hw & _ & _ & Hok).
  destruct Hok as (Hlen & _ & _); [by vm_compute|].
  rewrite Hw, issued_extend, length_app, length_fmap, Hlen. by vm_compute.
Defined.

(** ** Entities registered by a run *)

Lemma features_entities project_name features :
  omap entity_name (calls_of (features ≫= feature_script project_name))
  = Feature.name <$> features.
Proof.
  induction features as [|f fs IH]; [done|].
  rewrite bind_cons, calls_of_app, omap_app, IH. done.
Qed.

Lemma dependencies_entities components :
  omap entity_name (calls_of (dependencies_script components)) = [].
Proof.
  apply elem_of_nil_inv. intros n (c & Hc & Hn)%list_elem_of_omap.
  apply elem_of_dependencies_calls in Hc as (a & d & _ & _ & _ & ->). done.
Qed.

Lemma population_entities project features components :
  omap entity_name (calls_of (population_script project features components))
  = SoftwareProject.name project :: (Feature.name <$> features)
    ++ (Component.name <$> components).
Proof.
  unfold population_script. rewrite !calls_of_app, !omap_app.
  rewrite features_entities, components_entities, dependencies_entities.
  by rewrite app_nil_r.
Qed.

(** X5. The entity names a run of the population sequence registers are, in
    this order, the project, the features and the components, each name as
    often as it occurs; a run that fails registers an initial part of this
    list, and the dependency pass adds none. *)
Theorem registered_entities (graphiti : Graphiti) (project : SoftwareProject.t)
    (features : list Feature.t) (components : list Component.t) (w : World) :
  let run := population_sequence graphiti project features components w in
  let names := SoftwareProject.name project :: (Feature.name <$> features)
               ++ (Component.name <$> components) in
  ∃ new,
    issued run.1 = issued w ++ new
    ∧ omap entity_name new `prefix_of` names
    ∧ (run.2 = Ok () → omap entity_name new = names).
Proof.
  cbv zeta. rewrite population_sequence_script.
  destruct (run_script_issued graphiti (population_script project features components) w)
    as (new & Hnew & Hpre & Hok).
  exists new. rewrite <- population_entities.
  split_and!; [done|by apply omap_prefix|]. intros Hr. by rewrite (Hok Hr).
Qed.

Lemma registered_entities_witness :
  omap entity_name
    (issued (population_sequence reliable AGENTFORGE_PROJECT [] scenario_1 empty_world).1)
  = ["AgentForge"; "A"; "B"].
Proof.
  destruct (registered_entities reliable AGENTFORGE_PROJECT [] scenario_1 empty_world)
    as (new & Hnew & _ & Hok).
  rewrite Hnew. simpl. apply Hok. by vm_compute.
Defined.

(** ** Metadata and the other arguments of an entity call *)

Lemma elem_of_model_dump_keys fields k :
  k ∈ (model_dump fields true).*1 ↔ ∃ v, (k, v) ∈ fields ∧ v ≠ PyNone.
Proof.
  rewrite list_elem_of_fmap. split.
  - intros ([k' v] & -> & Hkv). exists v. by apply elem_of_model_dump.
  - intros (v & Hkv). exists (k, v). split; [done|]. by apply elem_of_model_dump.
Qed.

Lemma model_dump_optional_key fields k (o : option string) :
  (∀ v, (k, v) ∈ fields ↔ v = of_optional PyStr o) →
  (∀ d, o = Some d ↔ (k, PyStr d) ∈ model_dump fields true)
  ∧ (o = None ↔ k ∉ (model_dump fields true).*1).
Proof.
  intros Hk. split.
  - intros d. rewrite elem_of_model_dump, Hk. split.
    + by intros ->.
    + intros [Heq _]. destruct o; simpl in Heq; congruence.
  - rewrite elem_of_model_dump_keys. split.
    + intros -> (v & Hv & Hne). by apply Hk in Hv.
    + intros Hn. destruct o as [d|]; [|done].
      exfalso. apply Hn. exists (PyStr d). split; [by apply Hk|done].
Qed.

Ltac find_field :=
  let H := fresh in
  split;
  [ intros H; rewrite !elem_of_cons, elem_of_nil in H;
    repeat (destruct H as [H|H]); try discriminate H; try done;
    by injection H as ->
  | intros ->; rewrite !elem_of_cons; auto 10 ].

Lemma project_entity_matches project : metadata_matches_arguments (project_entity project).
Proof.
  unfold project_entity, metadata_matches_arguments. split.
  - apply elem_of_model_dump. split; [by left|done].
  - apply model_dump_optional_key. intros v. unfold SoftwareProject.fields. find_field.
Qed.

Lemma feature_entity_matches feature : metadata_matches_arguments (feature_entity feature).
Proof.
  unfold feature_entity, metadata_matches_arguments. split.
  - apply elem_of_model_dump. split; [by left|done].
  - apply model_dump_optional_key. intros v. unfold Feature.fields. find_field.
Qed.

Lemma component_entity_matches component :
  metadata_matches_arguments (component_entity component).
Proof.
  unfold component_entity, metadata_matches_arguments. split.
  - apply elem_of_model_dump. split; [by left|done].
  - apply model_dump_optional_key. intros v. unfold Component.fields. find_field.
Qed.

Lemma population_calls_match project features components c :
  c ∈ calls_of (population_script project features components) →
  metadata_matches_arguments c.
Proof.
  unfold population_script. rewrite !calls_of_app, !elem_of_app.
  intros [Hc|[Hc|[Hc|Hc]]].
  - apply elem_of_cons in Hc as [->|Hc%elem_of_nil]; [|done]. apply project_entity_matches.
  - unfold calls_of in Hc. apply list_elem_of_omap in Hc as (act & Hact & Hc).
    apply list_elem_of_bind in Hact as (f & Hact & _).
    unfold feature_script in Hact. rewrite !elem_of_cons, elem_of_nil in Hact.
    destruct Hact as [->|[->|[->|[]]]]; simplify_eq/=; [|done].
    apply feature_entity_matches.
  - unfold calls_of in Hc. apply list_elem_of_omap in Hc as (act & Hact & Hc).
    apply list_elem_of_bind in Hact as (f & Hact & _).
    unfold component_script in Hact. rewrite !elem_of_cons, elem_of_nil in Hact.
    destruct Hact as [->|[->|[->|[]]]]; simplify_eq/=; [|done].
    apply component_entity_matches.
  - by apply elem_of_dependencies_calls in Hc as (a & d & _ & _ & _ & ->).
Qed.

(** X6. In every entity call of a run of the population sequence the metadata
    agrees with the other arguments: it has the entity name under [name]; it
    has the summary under [description] when the record has a description, and
    no [description] key when the summary is [None]. *)
Theorem metadata_matches_entity (graphiti : Graphiti) (project : SoftwareProject.t)
    (features : list Feature.t) (components : list Component.t) (w : World) :
  ∃ new,
    trace (population_sequence graphiti project features components w).1 = trace w ++ new
    ∧ ∀ ev, ev ∈ new → metadata_matches_arguments ev.1.
Proof.
  rewrite population_sequence_script.
  destruct (run_script_new_calls graphiti (population_script project features components) w)
    as (new & Htr & Hnew).
  exists new. split; [done|]. intros ev Hev. eapply population_calls_match. eauto.
Qed.

(** ** Keys of the metadata *)

Lemma model_dump_keys_sublist fields :
  (model_dump fields true).*1 `sublist_of` fields.*1.
Proof. unfold model_dump. apply fmap_sublist, sublist_filter. Qed.

Lemma declared_keys_NoDup (keys : list string) :
  bool_decide (NoDup keys) = true → NoDup keys.
Proof. apply bool_decide_eq_true_1. Qed.

(** X7. The metadata of an entity is a mapping: its keys are distinct and come
    in the order the fields are declared.  The fields that are never [None]
    are always there: [name] and [status] for a project and a feature, [name]
    and [dependencies] for a component, the latter also when the list is
    empty. *)
Theorem metadata_keys :
  (∀ p : SoftwareProject.t,
     let md := model_dump (SoftwareProject.fields p) true in
     NoDup md.*1
     ∧ md.*1 `sublist_of` ["name"; "repo_url"; "language"; "framework"; "version";
                           "status"; "description"; "license"]
     ∧ ("name", PyStr (SoftwareProject.name p)) ∈ md
     ∧ ("status", PyStr (ProjectStatus_value (SoftwareProject.status p))) ∈ md)
  ∧ (∀ f : Feature.t,
       let md := model_dump (Feature.fields f) true in
       NoDup md.*1
       ∧ md.*1 `sublist_of` ["name"; "status"; "priority"; "release_version"; "description"]
       ∧ ("name", PyStr (Feature.name f)) ∈ md
       ∧ ("status", PyStr (FeatureStatus_value (Feature.status f))) ∈ md)
  ∧ (∀ c : Component.t,
       let md := model_dump (Component.fields c) true in
       NoDup md.*1
       ∧ md.*1 `sublist_of` ["name"; "type"; "path"; "language"; "dependencies";
                             "description"]
       ∧ ("name", PyStr (Component.name c)) ∈ md
       ∧ ("dependencies", PyList (Component.dependencies c)) ∈ md).
Proof.
  split_and!; intros r; cbv zeta.
  - pose proof (model_dump_keys_sublist (SoftwareProject.fields r)) as Hsub.
    split_and!; [|exact Hsub| |].
    + refine (sublist_NoDup _ _ _ Hsub). by apply declared_keys_NoDup.
    + apply elem_of_model_dump. split; [by left|done].
    + apply elem_of_model_dump. split; [|done]. do 5 right. by left.
  - pose proof (model_dump_keys_sublist (Feature.fields r)) as Hsub.
    split_and!; [|exact Hsub| |].
    + refine (sublist_NoDup _ _ _ Hsub). by apply declared_keys_NoDup.
    + apply elem_of_model_dump. split; [by left|done].
    + apply elem_of_model_dump. split; [|done]. right. by left.
  - pose proof (model_dump_keys_sublist (Component.fields r)) as Hsub.
    split_and!; [|exact Hsub| |].
    + refine (sublist_NoDup _ _ _ Hsub). by apply declared_keys_NoDup.
    + apply elem_of_model_dump. split; [by left|done].
    + apply elem_of_model_dump. split; [|done]. do 4 right. by left.
Qed.

(** A component built with its name alone still carries both keys. *)
Example bare_component_metadata :
  model_dump (Component.fields (Component.new "C" Component.no_kwargs)) true
  = [("name", PyStr "C"); ("dependencies", PyList [])].
Proof. by vm_compute. Qed.

(** ** Running the sequence again *)

Lemma run_script_ok_world g s w :
  (run_script g s w).2 = Ok () →
  (run_script g s w).1 = extend w (accepted (calls_of s)) (lines_of s).
Proof.
  destruct (run_script_cases g s w) as [->|(pre & c & post & e & _ & _ & ->)]; [done|].
  by intros [=].
Qed.

(** X8. The population sequence does not look at what the store holds: a
    second run that also ends normally issues every call of the first run
    again, so each entity and each relationship is written twice. *)
Theorem population_twice (graphiti : Graphiti) (project : SoftwareProject.t)
    (features : list Feature.t) (components : list Component.t) (w : World) :
  let first := population_sequence graphiti project features components w in
  let second := population_sequence graphiti project features components first.1 in
  let planned :=
    issued (population_sequence reliable project features components empty_world).1 in
  first.2 = Ok () → second.2 = Ok () →
  issued second.1 = issued w ++ planned ++ planned
  ∧ written second.1 = written w ++ planned ++ planned.
Proof.
  cbv zeta. rewrite planned_calls, !population_sequence_script.
  intros H1 H2. rewrite (run_script_ok_world _ _ _ H2).
  rewrite (run_script_ok_world _ _ _ H1) in *.
  rewrite extend_extend, issued_extend, written_extend.
  rewrite <- accepted_app, filter_completed_accepted, accepted_fst. done.
Qed.

Lemma population_twice_witness :
  let first := population_sequence reliable AGENTFORGE_PROJECT [] scenario_1 empty_world in
  omap edge_of (written (population_sequence reliable AGENTFORGE_PROJECT [] scenario_1
                           first.1).1)
  = [ ("AgentForge", "A", "has_component"); ("AgentForge", "B", "has_component");
      ("A", "B", "depends_on");
      ("AgentForge", "A", "has_component"); ("AgentForge", "B", "has_component");
      ("A", "B", "depends_on") ].
Proof.
  cbv zeta.
  destruct (population_twice reliable AGENTFORGE_PROJECT [] scenario_1 empty_world)
    as [_ ->]; by vm_compute.
Defined.

(** ** Adding components *)





(** ** Main execution *)







(** X11. The table of status marks in [main] has an entry for every feature
    status, so the mark for an unknown status is never printed. *)
Theorem status_emoji_total (s : FeatureStatus) :
  ∃ mark, (s, mark) ∈ status_emoji_table
          ∧ dict_get status_emoji_table s MARK_UNKNOWN = mark
          ∧ mark ≠ MARK_UNKNOWN.
Proof.
  destruct s; eexists; (split_and!; [|reflexivity|by vm_compute]);
    unfold status_emoji_table; rewrite !elem_of_cons; auto 10.
Qed.
